(** * ClearML URL proxy: path rewriting and request relay

    A shallow embedding of [docker/url-proxy/url_proxy.py].

    - Python [str] values are [string]s (a [str] is represented by its
      UTF-8 bytes; the characters the code inspects, ['/'], ['_'], the
      line feed and the two trigger words, are ASCII, and UTF-8 never
      produces an ASCII byte inside a multi-byte character).
    - [re.match] is a backtracking matcher over the fragment of Python's
      pattern syntax that the source uses; the pattern is kept as the
      literal string of the source and compiled by [re_compile].
    - Python [dict]s with [str] keys are [gmap string _].
    - The handler runs in a small monad that records the calls made to
      [requests.request] and propagates Python exceptions.
    - [logger] calls are left out: they return nothing and influence no
      value computed by the handlers. *)

From Stdlib Require Import Ascii.
From stdpp Require Import gmap strings pretty.

(** ** Strings *)

Module Str.

(** The line feed, the only character [.] refuses. *)
Definition LF : ascii := "010"%char.

Definition one (c : ascii) : string := String c "".

(** [s.startswith(p)] *)
Fixpoint starts_with (p s : string) : bool :=
  match p, s with
  | "", _ => true
  | String a p', String b s' => if decide (a = b) then starts_with p' s' else false
  | String _ _, "" => false
  end.

(** [needle in hay] for two [str]s: substring containment. *)
Fixpoint str_in (needle hay : string) : bool :=
  starts_with needle hay ||
  match hay with
  | String _ hay' => str_in needle hay'
  | "" => false
  end.

(** Declarative counterpart of [str_in]. *)
Definition Substring (needle hay : string) : Prop :=
  ∃ a b, hay = a +:+ needle +:+ b.

(** [c in s] for a single character. *)
Fixpoint has_char (c : ascii) (s : string) : bool :=
  match s with
  | "" => false
  | String a s' => if decide (a = c) then true else has_char c s'
  end.

(** Every character of [s] satisfies [p]. *)
Fixpoint all_chars (p : ascii → bool) (s : string) : bool :=
  match s with
  | "" => true
  | String a s' => p a && all_chars p s'
  end.

(** ASCII lower-casing, as [str.lower] acts on header names. *)
Definition lower_char (c : ascii) : ascii :=
  let n := nat_of_ascii c in
  if (65 <=? n)%nat && (n <=? 90)%nat then ascii_of_nat (n + 32) else c.

Fixpoint lower (s : string) : string :=
  match s with
  | "" => ""
  | String a s' => String (lower_char a) (lower s')
  end.

End Str.

(** ** The fragment of [re] used by the source *)

Module Re.

Import Str.

(** What one pattern character (or set) accepts. *)
Inductive charset :=
| AnyButNewline                (* [.] *)
| Literal (c : ascii)          (* an ordinary character *)
| NoneOf (cs : list ascii).    (* [[^...]] *)

Definition charset_has (cs : charset) (c : ascii) : bool :=
  match cs with
  | AnyButNewline => bool_decide (c ≠ LF)
  | Literal a => bool_decide (c = a)
  | NoneOf l => bool_decide (c ∉ l)
  end.

Inductive quant := Once | ZeroOrMore | OneOrMore.

Inductive node :=
| AtStart                              (* [^] *)
| AtEnd                                (* [$] *)
| Chars (cs : charset) (q : quant)     (* an atom with its greedy quantifier *)
| GroupOpen                            (* [(] *)
| GroupClose.                          (* [)] *)

(** *** Compiling the pattern text *)

Inductive pstate :=
| Ready
| SetStart                      (* just after [[] *)
| InSet (acc : list ascii).     (* inside [[^...] *)

Definition metachar (c : ascii) : bool :=
  bool_decide (c ∈ ["*"; "+"; "?"; "{"; "}"; "|"; "\"; "]"; "["; "("; ")"; "^"; "$"; "."]%char).

(** An atom has been read; [r] is the text after it. A following [*] or
    [+] binds to it. *)
Definition quantified (cs : charset) (r : string)
    (k : string → option (list node)) : option (list node) :=
  match r with
  | String "*" r' => cons (Chars cs ZeroOrMore) <$> k r'
  | String "+" r' => cons (Chars cs OneOrMore) <$> k r'
  | _ => cons (Chars cs Once) <$> k r
  end.

(** Pattern text to program. Constructs outside the fragment (nested
    groups, alternation, ranges, [?], counted repetition, positive
    sets, escapes other than an escaped punctuation character) give
    [None]. *)
Fixpoint compile_go (st : pstate) (in_group : bool) (p : string)
    : option (list node) :=
  match st, p with
  | Ready, "" => if in_group then None else Some []
  | Ready, String "^" r => cons AtStart <$> compile_go Ready in_group r
  | Ready, String "$" r => cons AtEnd <$> compile_go Ready in_group r
  | Ready, String "(" r =>
      if in_group then None else cons GroupOpen <$> compile_go Ready true r
  | Ready, String ")" r =>
      if in_group then cons GroupClose <$> compile_go Ready false r else None
  | Ready, String "." r => quantified AnyButNewline r (compile_go Ready in_group)
  | Ready, String "[" r => compile_go SetStart in_group r
  | Ready, String "\" (String c r) =>
      if metachar c || bool_decide (c = "-"%char)
      then quantified (Literal c) r (compile_go Ready in_group)
      else None
  | Ready, String c r =>
      if metachar c then None
      else quantified (Literal c) r (compile_go Ready in_group)
  | SetStart, String "^" r => compile_go (InSet []) in_group r
  | SetStart, _ => None
  | InSet acc, String "]" r =>
      match acc with
      | [] => None
      | _ => quantified (NoneOf acc) r (compile_go Ready in_group)
      end
  | InSet acc, String c r =>
      if bool_decide (c ∈ ["\"; "-"; "["; "^"]%char) then None
      else compile_go (InSet (acc ++ [c])) in_group r
  | InSet _, "" => None
  end.

Definition re_compile (p : string) : option (list node) :=
  compile_go Ready false p.

(** *** Running a program *)

Definition groups := list string.

Definition least (q : quant) : nat :=
  match q with OneOrMore => 1 | _ => 0 end.

(** [$] holds at the end of the text and just before a final line feed. *)
Definition at_end (s : string) : bool :=
  bool_decide (s = "") || bool_decide (s = one LF).

(** Text consumed while a group is open is added to that group. *)
Definition extend (cur : option string) (t : string) : option string :=
  (λ u, u +:+ t) <$> cur.

(** Greedy repetition: take as many characters of the set as there
    are, then give back one at a time until the continuation [k]
    succeeds. [taken] is what has been consumed so far. *)
Fixpoint greedy (cs : charset) (n : nat) (k : string → string → option groups)
    (taken s : string) : option groups :=
  let stop := if (n <=? String.length taken)%nat then k taken s else None in
  match s with
  | String c s' =>
      if charset_has cs c then
        match greedy cs n k (taken +:+ one c) s' with
        | Some g => Some g
        | None => stop
        end
      else stop
  | "" => stop
  end.

(** [pos] is the number of characters consumed so far, [s] the rest of
    the text, [cur] the text of the open group if any, [caps] the
    groups closed so far. *)
Fixpoint exec (prog : list node) (pos : nat) (s : string)
    (cur : option string) (caps : groups) : option groups :=
  match prog with
  | [] => Some caps
  | AtStart :: prog' =>
      if decide (pos = 0) then exec prog' pos s cur caps else None
  | AtEnd :: prog' =>
      if at_end s then exec prog' pos s cur caps else None
  | Chars cs Once :: prog' =>
      match s with
      | String c s' =>
          if charset_has cs c
          then exec prog' (S pos) s' (extend cur (one c)) caps
          else None
      | "" => None
      end
  | Chars cs q :: prog' =>
      greedy cs (least q)
        (λ t s', exec prog' (pos + String.length t) s' (extend cur t) caps)
        "" s
  | GroupOpen :: prog' =>
      match cur with
      | None => exec prog' pos s (Some "") caps
      | Some _ => None
      end
  | GroupClose :: prog' =>
      match cur with
      | Some t => exec prog' pos s None (caps ++ [t])
      | None => None
      end
  end.

(** [re.match(pattern, text)] followed by [.groups()]: [None] when the
    text does not match at its beginning. *)
Definition re_match (pattern text : string) : option groups :=
  prog ← re_compile pattern; exec prog 0 text None [].

(** *** What a match is

    The matches of a program, without the search order: [run prog pos s
    cur caps g] says that [prog] can consume a prefix of [s] and end
    with the groups [g]. [exec] finds one of them when there is one. *)
Inductive run : list node → nat → string → option string → groups → groups → Prop :=
| run_done pos s cur caps :
    run [] pos s cur caps caps
| run_start prog s cur caps g :
    run prog 0 s cur caps g →
    run (AtStart :: prog) 0 s cur caps g
| run_end prog pos s cur caps g :
    at_end s = true →
    run prog pos s cur caps g →
    run (AtEnd :: prog) pos s cur caps g
| run_one prog cs pos c s cur caps g :
    charset_has cs c = true →
    run prog (S pos) s (extend cur (one c)) caps g →
    run (Chars cs Once :: prog) pos (String c s) cur caps g
| run_many prog cs q pos t s cur caps g :
    q ≠ Once →
    all_chars (charset_has cs) t = true →
    least q ≤ String.length t →
    run prog (pos + String.length t) s (extend cur t) caps g →
    run (Chars cs q :: prog) pos (t +:+ s) cur caps g
| run_open prog pos s caps g :
    run prog pos s (Some "") caps g →
    run (GroupOpen :: prog) pos s None caps g
| run_close prog pos s t caps g :
    run prog pos s None (caps ++ [t]) g →
    run (GroupClose :: prog) pos s (Some t) caps g.

End Re.

(** ** [fix_url_encoding] *)

Definition pattern : string := "^/([^/]+)/([^/]+)_([^/]+)/(.*)$".

Definition fix_url_encoding (path : string) : string :=
  match Re.re_match pattern path with
  | Some [part1; part2; part3; rest] =>
      if Str.str_in "CT_BRAIN" (part2 +:+ "_" +:+ part3)
         || Str.str_in "multiclass_segmentation" (part2 +:+ "_" +:+ part3)
      then "/" +:+ part1 +:+ "%252F" +:+ part2 +:+ "_" +:+ part3 +:+ "/" +:+ rest
      else path
  | _ => path
  end.


(** The program [re.compile] makes of [pattern]. *)
Definition pattern_prog : list Re.node :=
  let slash := Re.Chars (Re.Literal "/") Re.Once in
  let segment := Re.Chars (Re.NoneOf ["/"%char]) Re.OneOrMore in
  [ Re.AtStart; slash;
    Re.GroupOpen; segment; Re.GroupClose; slash;
    Re.GroupOpen; segment; Re.GroupClose; Re.Chars (Re.Literal "_") Re.Once;
    Re.GroupOpen; segment; Re.GroupClose; slash;
    Re.GroupOpen; Re.Chars Re.AnyButNewline Re.ZeroOrMore; Re.GroupClose;
    Re.AtEnd ].

(** ** Vocabulary of the specification *)

(** A path segment: no ['/'] in it. *)
Definition slash_free (s : string) : Prop := Str.has_char "/" s = false.

(** No line feed in it. *)
Definition single_line (s : string) : Prop := Str.has_char Str.LF s = false.

(** A segment with an underscore that has text on both sides. *)
Definition underscored (seg : string) : Prop :=
  ∃ p q, p ≠ "" ∧ q ≠ "" ∧ seg = p +:+ "_" +:+ q.

(** A segment that contains one of the two trigger words. *)
Definition triggered (seg : string) : Prop :=
  Str.Substring "CT_BRAIN" seg ∨ Str.Substring "multiclass_segmentation" seg.

(** The test the source makes on [part2_part3]. *)
Definition trigger_test (seg : string) : bool :=
  Str.str_in "CT_BRAIN" seg || Str.str_in "multiclass_segmentation" seg.

(** ['/' + segmentA + '/' + segmentB + '/' + rest] *)
Definition four_part (segA segB rest : string) : string :=
  "/" +:+ segA +:+ "/" +:+ segB +:+ "/" +:+ rest.

(** ['/' + segmentA + '%252F' + segmentB + '/' + rest] *)
Definition rewritten (segA segB rest : string) : string :=
  "/" +:+ segA +:+ "%252F" +:+ segB +:+ "/" +:+ rest.

(** The four-part shape: both segments free of ['/'], the second one
    underscored, the rest arbitrary. *)
Definition four_part_shape (path : string) : Prop :=
  ∃ segA segB rest,
    path = four_part segA segB rest ∧
    slash_free segA ∧ slash_free segB ∧ underscored segB.

(** ** HTTP values *)

(** A response body is [bytes] (what [requests] read from the upstream)
    or a [str] (the text of the error reply). *)
Inductive Body :=
| BodyBytes (b : list Byte.byte)
| BodyText (s : string).

(** [starlette.requests.Request], as far as the handler reads it.
    [request_headers] is the header list in wire order; the server has
    lower-cased the names. *)
Record Request := {
  request_method : string;
  request_query : string;                      (* [request.url.query] *)
  request_headers : list (string * string);
  request_body : list Byte.byte;               (* [await request.body()] *)
}.

(** [requests.structures.CaseInsensitiveDict]: the store maps the
    lower-cased name to the name as last set and its value. *)
Record CaseInsensitiveDict := { ci_store : gmap string (string * string) }.

Definition ci_set (name value : string) (d : CaseInsensitiveDict) : CaseInsensitiveDict :=
  {| ci_store := <[Str.lower name := (name, value)]> (ci_store d) |}.

Definition ci_of_list (l : list (string * string)) : CaseInsensitiveDict :=
  foldl (λ d kv, ci_set kv.1 kv.2 d) {| ci_store := ∅ |} l.

(** [dict(d)] for a [CaseInsensitiveDict]: iteration yields the names in
    the case they were set with, so the plain [dict] is keyed by those. *)
Definition dict_of_ci (d : CaseInsensitiveDict) : gmap string string :=
  list_to_map (snd <$> map_to_list (ci_store d)).

(** [dict(request.headers)] for Starlette's [Headers]: one key per name,
    holding the first value listed for it. *)
Definition dict_of_headers (l : list (string * string)) : gmap string string :=
  list_to_map l.

(** [requests.Response], as far as the handler reads it. [up_content]
    is [response.content]: the body as [requests] hands it over, after
    it has undone the content coding named by [Content-Encoding]. *)
Record UpstreamResponse := {
  up_status_code : Z;
  up_headers : CaseInsensitiveDict;
  up_content : list Byte.byte;
}.

(** The keyword arguments of one [requests.request] call. *)
Record RequestsCall := {
  call_method : string;
  call_url : string;
  call_headers : gmap string string;
  call_data : list Byte.byte;
  call_allow_redirects : bool;
  call_timeout : Z;
}.

(** The arguments of [starlette.responses.Response(content, status_code,
    headers)]. [headers] is the [dict] handed to the constructor, keyed
    by the names as that [dict] spells them; when it sends the response
    Starlette writes every name in lower case, so two keys that differ
    in case only are sent as two headers of one name. *)
Record Response := {
  content : Body;
  status_code : Z;
  headers : gmap string string;
}.

(** ** Exceptions *)

(** The failures [requests.request] raises, all subclasses of
    [requests.exceptions.RequestException]. *)
Inductive requests_failure :=
| ConnectionError      (* connection refused, name resolution failure *)
| ConnectTimeout
| ReadTimeout
| OtherRequestException.

Inductive exn :=
| RequestsException (kind : requests_failure) (message : string)
| HttpxRequestError (message : string).

(** [isinstance(e, httpx.RequestError)]. The exception classes of
    [requests] derive from [IOError] and are unrelated to those of
    [httpx]. *)
Definition is_httpx_RequestError (e : exn) : bool :=
  match e with
  | HttpxRequestError _ => true
  | RequestsException _ _ => false
  end.

(** [str(e)] *)
Definition exn_str (e : exn) : string :=
  match e with
  | RequestsException _ m => m
  | HttpxRequestError m => m
  end.

(** ** The handler monad

    A computation threads the list of [requests.request] calls made so
    far and ends with a value or a raised exception. *)

Inductive Outcome (A : Type) :=
| Returned (a : A)
| Raised (e : exn).
Arguments Returned {A} a.
Arguments Raised {A} e.

Definition M (A : Type) : Type := list RequestsCall → Outcome A * list RequestsCall.

#[global] Instance M_ret : MRet M := λ A a calls, (Returned a, calls).

#[global] Instance M_bind : MBind M := λ A B f m calls,
  match m calls with
  | (Returned a, calls') => f a calls'
  | (Raised e, calls') => (Raised e, calls')
  end.

(** [try: body except <class> as e: handler] *)
Definition try_except {A} (body : M A) (catches : exn → bool) (handler : exn → M A) : M A :=
  λ calls,
    match body calls with
    | (Raised e, calls') => if catches e then handler e calls' else (Raised e, calls')
    | done => done
    end.

(** ** The relay *)

Section Relay.

(** Configuration read from the environment at start-up. *)
Variable FILESERVER_HOST : string.
Variable FILESERVER_PORT : Z.

(** The upstream as seen through [requests.request]: each call is
    answered with a response or fails with one of the exceptions of
    [requests]. *)
Variable upstream : RequestsCall → UpstreamResponse + (requests_failure * string).

Definition requests_request (c : RequestsCall) : M UpstreamResponse :=
  λ calls,
    match upstream c with
    | inl r => (Returned r, calls ++ [c])
    | inr (kind, message) => (Raised (RequestsException kind message), calls ++ [c])
    end.

(** The URL the request is forwarded to. *)
Definition target_url (request : Request) (path : string) : string :=
  let original_path := "/" +:+ path in
  let fixed_path := fix_url_encoding original_path in
  let target_url := "http://" +:+ FILESERVER_HOST +:+ ":" +:+ pretty FILESERVER_PORT +:+ fixed_path in
  if decide (request_query request = "") then target_url
  else target_url +:+ "?" +:+ request_query request.

(** The arguments [sync_request] passes to [requests.request]. *)
Definition sync_request_call (request : Request) (target_url : string)
    (body : list Byte.byte) : RequestsCall := {|
  call_method := request_method request;
  call_url := target_url;
  call_headers := dict_of_headers (request_headers request);
  call_data := body;
  call_allow_redirects := false;
  call_timeout := 30;
|}.

Definition sync_request (request : Request) (target_url : string) (body : list Byte.byte)
    : M UpstreamResponse :=
  requests_request (sync_request_call request target_url body).

(** The headers of the relayed response, from those of the upstream's. *)
Definition relay_headers (upstream_headers : CaseInsensitiveDict) : gmap string string :=
  let headers := dict_of_ci upstream_headers in
  let headers := delete "connection" headers in
  let headers := delete "transfer-encoding" headers in
  let headers := <["Access-Control-Allow-Origin" := "*"]> headers in
  let headers := <["Access-Control-Allow-Methods" := "GET, POST, OPTIONS, DELETE, PUT"]> headers in
  <["Access-Control-Allow-Headers" :=
      "DNT,User-Agent,X-Requested-With,If-Modified-Since,Cache-Control,Content-Type,Range,Authorization"]>
    headers.

Definition proxy_request (request : Request) (path : string) : M Response :=
  let target_url := target_url request path in
  try_except
    (let body := request_body request in
     response ← sync_request request target_url body;
     mret {| content := BodyBytes (up_content response);
             status_code := up_status_code response;
             headers := relay_headers (up_headers response) |})
    is_httpx_RequestError
    (λ e, mret {| content := BodyText ("Proxy error: " +:+ exn_str e);
                  status_code := 502;
                  headers := {["Content-Type" := "text/plain"]} |}).

(** The one call [proxy_request] makes for a request. *)
Definition forwarded_call (request : Request) (path : string) : RequestsCall :=
  sync_request_call request (target_url request path) (request_body request).

(** [health_check] returns a [dict]; the framework sends it as JSON
    with status 200. *)
Definition health_check : list (string * string) :=
  [("status", "healthy"); ("service", "clearml-url-proxy")].

(** *** Routing

    The routes of [app] in the order they were registered: the
    documentation routes [FastAPI(...)] adds when it is constructed,
    then one per decorator, top to bottom. [route_regex] is the
    pattern Starlette derives from the route's path. *)

Inductive endpoint :=
| Documentation (name : string)
| ProxyRequest
| HealthCheck.

Record Route := {
  route_path : string;
  route_regex : string;
  route_methods : list string;
  route_endpoint : endpoint;
}.

Definition routes : list Route := [
  {| route_path := "/openapi.json"; route_regex := "^/openapi\.json$";
     route_methods := ["GET"; "HEAD"]; route_endpoint := Documentation "openapi" |};
  {| route_path := "/docs"; route_regex := "^/docs$";
     route_methods := ["GET"; "HEAD"]; route_endpoint := Documentation "swagger_ui_html" |};
  {| route_path := "/docs/oauth2-redirect"; route_regex := "^/docs/oauth2\-redirect$";
     route_methods := ["GET"; "HEAD"]; route_endpoint := Documentation "swagger_ui_redirect" |};
  {| route_path := "/redoc"; route_regex := "^/redoc$";
     route_methods := ["GET"; "HEAD"]; route_endpoint := Documentation "redoc_html" |};
  {| route_path := "/{path:path}"; route_regex := "^/(.*)$";
     route_methods := ["GET"; "POST"; "PUT"; "DELETE"; "HEAD"; "OPTIONS"];
     route_endpoint := ProxyRequest |};
  {| route_path := "/health"; route_regex := "^/health$";
     route_methods := ["GET"]; route_endpoint := HealthCheck |}
].

Inductive Match :=
| NONE
| PARTIAL
| FULL (params : Re.groups).

(** [Route.matches] *)
Definition matches (r : Route) (method path : string) : Match :=
  match Re.re_match (route_regex r) path with
  | Some params =>
      if bool_decide (method ∈ route_methods r) then FULL params else PARTIAL
  | None => NONE
  end.

Inductive Routing :=
| Routed (e : endpoint) (params : Re.groups)
| MethodNotAllowed       (* some route has the path but not the method *)
| NotRouted.             (* no route has the path *)

(** [Router.app]: the first route that matches in full handles the
    request. *)
Fixpoint dispatch_from (rs : list Route) (partial : bool) (method path : string) : Routing :=
  match rs with
  | [] => if partial then MethodNotAllowed else NotRouted
  | r :: rs' =>
      match matches r method path with
      | FULL params => Routed (route_endpoint r) params
      | PARTIAL => dispatch_from rs' true method path
      | NONE => dispatch_from rs' partial method path
      end
  end.

Definition dispatch : string → string → Routing := dispatch_from routes false.

(** What the service sends back. *)
Inductive Reply :=
| Relayed (r : Response)                              (* from [proxy_request] *)
| Json (status : Z) (body : list (string * string))   (* from [health_check] *)
| ByFramework (r : Routing).                          (* documentation, 404, 405 *)

Definition app (request : Request) (raw_path : string) : M Reply :=
  match dispatch (request_method request) raw_path with
  | Routed ProxyRequest [path] => r ← proxy_request request path; mret (Relayed r)
  | Routed HealthCheck _ => mret (Json 200 health_check)
  | other => mret (ByFramework other)
  end.

End Relay.

(** ** Sample requests and upstreams *)

Module Sample.

Definition get (query : string) : Request := {|
  request_method := "GET";
  request_query := query;
  request_headers := [("host", "proxy:8082"); ("accept", "*/*")];
  request_body := [];
|}.

(** An upstream that cannot be reached: every call fails in
    [requests] with a [ConnectionError]. *)
Definition unreachable : RequestsCall → UpstreamResponse + (requests_failure * string) :=
  λ _, inr (ConnectionError, "Connection refused").

(** An upstream that answers every call with a redirect. *)
Definition redirecting : RequestsCall → UpstreamResponse + (requests_failure * string) :=
  λ _, inl {| up_status_code := 302;
              up_headers := ci_of_list [("Location", "http://elsewhere/model.pt");
                                        ("Content-Length", "0")];
              up_content := [] |}.

(** An upstream that answers in the usual spelling of header names. *)
Definition keep_alive : RequestsCall → UpstreamResponse + (requests_failure * string) :=
  λ _, inl {| up_status_code := 200;
              up_headers := ci_of_list [("Content-Type", "application/octet-stream");
                                        ("Connection", "keep-alive");
                                        ("Transfer-Encoding", "chunked")];
              up_content := [] |}.

(** An upstream that is up but has no [/health] of its own. *)
Definition no_such_file : RequestsCall → UpstreamResponse + (requests_failure * string) :=
  λ _, inl {| up_status_code := 404;
              up_headers := ci_of_list [("Content-Type", "text/html")];
              up_content := [] |}.

End Sample.

(** ** The upstream's reply before [requests] has read it *)

(** The reply on the wire: status line, header lines, body bytes. *)
Record WireResponse := {
  wire_status_code : Z;
  wire_headers : list (string * string);
  wire_body : list Byte.byte;
}.

Section Decoding.

(** The content codings [requests] undoes while it reads a body (gzip,
    deflate): [content_decoder coding] is the decoder it applies for the
    [Content-Encoding] value [coding], [None] for a coding it leaves
    alone. *)
Variable content_decoder : string → option (list Byte.byte → list Byte.byte).

(** [response.content] *)
Definition response_content (w : WireResponse) : list Byte.byte :=
  match ci_store (ci_of_list (wire_headers w)) !! "content-encoding" with
  | Some (_, coding) =>
      match content_decoder coding with
      | Some decode => decode (wire_body w)
      | None => wire_body w
      end
  | None => wire_body w
  end.

(** The [requests.Response] made of a reply: the headers are kept as
    received, [Content-Encoding] and [Content-Length] included. *)
Definition requests_response (w : WireResponse) : UpstreamResponse := {|
  up_status_code := wire_status_code w;
  up_headers := ci_of_list (wire_headers w);
  up_content := response_content w;
|}.

End Decoding.

Module WireSample.

(** Stands for a decoder in the examples; all that is used of it is
    that its output differs from the bytes it is given. *)
Definition strip_header (b : list Byte.byte) : list Byte.byte := drop 2 b.

Definition decoders (coding : string) : option (list Byte.byte → list Byte.byte) :=
  if decide (coding = "gzip") then Some strip_header else None.

Definition compressed : WireResponse := {|
  wire_status_code := 200;
  wire_headers := [("Content-Type", "application/octet-stream");
                   ("Content-Encoding", "gzip");
                   ("Content-Length", "3")];
  wire_body := [Byte.x1f; Byte.x8b; Byte.x08];
|}.

End WireSample.

(** * Properties *)

(** ** Strings *)

Module StrFacts.

Import Str.

Lemma app_cons a s t : String a s +:+ t = String a (s +:+ t).
Proof. reflexivity. Qed.

Lemma app_nil_l s : "" +:+ s = s.
Proof. reflexivity. Qed.

Lemma app_nil_r s : s +:+ "" = s.
Proof. induction s as [|a s IH]; [done|]. by rewrite app_cons, IH. Qed.

Lemma app_assoc s t u : (s +:+ t) +:+ u = s +:+ t +:+ u.
Proof. induction s as [|a s IH]; [done|]. by rewrite !app_cons, IH. Qed.

Lemma length_app s t : String.length (s +:+ t) = String.length s + String.length t.
Proof. induction s as [|a s IH]; [done|]. rewrite app_cons. simpl. by rewrite IH. Qed.

Lemma length_zero s : String.length s = 0 → s = "".
Proof. by destruct s. Qed.

Lemma app_inv_head s t u : s +:+ t = s +:+ u → t = u.
Proof. induction s as [|a s IH]; [done|]. rewrite !app_cons. intros [=]. auto. Qed.

Lemma has_char_app c s t : has_char c (s +:+ t) = has_char c s || has_char c t.
Proof.
  induction s as [|a s IH]; [done|].
  rewrite app_cons. simpl. by destruct (decide (a = c)).
Qed.

Lemma all_chars_app p s t : all_chars p (s +:+ t) = all_chars p s && all_chars p t.
Proof.
  induction s as [|a s IH]; [done|].
  rewrite app_cons. simpl. rewrite IH. by destruct (p a).
Qed.

(** A string free of [c] is one whose characters all differ from [c]. *)
Lemma all_chars_has_char c s :
  all_chars (λ a, bool_decide (a ≠ c)) s = negb (has_char c s).
Proof.
  induction s as [|a s IH]; [done|]. simpl. rewrite IH.
  destruct (decide (a = c)) as [->|Hne].
  - by rewrite bool_decide_eq_false_2 by auto.
  - by rewrite bool_decide_eq_true_2.
Qed.

(** Cutting a text at the first [c] is unambiguous. *)
Lemma first_cut c a a' x y :
  has_char c a = false → has_char c a' = false →
  a +:+ String c x = a' +:+ String c y →
  a = a' ∧ x = y.
Proof.
  revert a'. induction a as [|h a IH]; intros [|h' a']; simpl.
  - intros _ _ [=]. done.
  - intros _. destruct (decide (h' = c)); [done|]. rewrite app_nil_l, app_cons.
    intros _ [=]. congruence.
  - destruct (decide (h = c)); [done|]. rewrite app_nil_l, app_cons.
    intros _ _ [=]. congruence.
  - destruct (decide (h = c)); [done|]. destruct (decide (h' = c)); [done|].
    rewrite !app_cons. intros Ha Ha' [= -> Heq].
    destruct (IH a' Ha Ha' Heq) as [-> ->]. done.
Qed.

Lemma starts_with_spec p s : starts_with p s = true ↔ ∃ b, s = p +:+ b.
Proof.
  revert s. induction p as [|a p IH]; intros s; simpl.
  - split; [intros _; by exists s | done].
  - destruct s as [|b s].
    + split; [done | intros [x Hx]; discriminate].
    + destruct (decide (a = b)) as [->|Hne].
      * rewrite IH. split; intros [x Hx]; exists x.
        -- by rewrite app_cons, Hx.
        -- rewrite app_cons in Hx. congruence.
      * split; [done | intros [x Hx]]. rewrite app_cons in Hx. congruence.
Qed.

(** [str_in] decides containment as a substring. *)
Lemma str_in_spec needle hay : str_in needle hay = true ↔ Substring needle hay.
Proof.
  unfold Substring. induction hay as [|h hay IH].
  - simpl. rewrite orb_false_r, starts_with_spec. split.
    + intros [b Hb]. by exists "", b.
    + intros ([|x a] & b & Hab); [by exists b | discriminate].
  - cbn [str_in]. rewrite orb_true_iff, starts_with_spec, IH. split.
    + intros [[b Hb] | (a & b & Hab)].
      * by exists "", b.
      * exists (String h a), b. by rewrite app_cons, Hab.
    + intros ([|x a] & b & Hab).
      * left. by exists b.
      * right. rewrite app_cons in Hab. injection Hab as -> ->. by exists a, b.
Qed.

Lemma str_in_false needle hay : str_in needle hay = false ↔ ¬ Substring needle hay.
Proof. rewrite <- str_in_spec. by destruct (str_in needle hay). Qed.

End StrFacts.

(** ** The matcher finds exactly the matches *)

Module ReFacts.

Import Str StrFacts Re.

Section Greedy.

Variables (cs : charset) (n : nat) (k : string → string → option groups).

(** Whatever [greedy] returns was returned by the continuation on a
    split of the text after a run of characters of the set. *)
Lemma greedy_sound taken s g :
  greedy cs n k taken s = Some g →
  ∃ t s', s = t +:+ s' ∧ all_chars (charset_has cs) t = true ∧
          n ≤ String.length (taken +:+ t) ∧ k (taken +:+ t) s' = Some g.
Proof.
  revert taken. induction s as [|c s IH]; intros taken; simpl.
  - destruct (Nat.leb_spec n (String.length taken)) as [Hle|]; [|done].
    intros Hk. exists "", "". by rewrite !app_nil_r.
  - assert (Hstop :
      (if (n <=? String.length taken)%nat then k taken (String c s) else None) = Some g →
      ∃ t s', String c s = t +:+ s' ∧ all_chars (charset_has cs) t = true ∧
              n ≤ String.length (taken +:+ t) ∧ k (taken +:+ t) s' = Some g).
    { destruct (Nat.leb_spec n (String.length taken)) as [Hle|]; [|done].
      intros Hk. exists "", (String c s). by rewrite !app_nil_r. }
    destruct (charset_has cs c) eqn:Hc; [|done].
    destruct (greedy cs n k (taken +:+ one c) s) as [g'|] eqn:Hg; [|done].
    intros [= ->]. destruct (IH _ Hg) as (t & s' & -> & Ht & Hn & Hk).
    exists (String c t), s'. unfold one in *.
    rewrite app_assoc in Hn, Hk. simpl. by rewrite Hc.
Qed.

(** If the continuation accepts some split, [greedy] returns a result
    (that of the longest accepted split). *)
Lemma greedy_complete t : ∀ taken s' g,
  all_chars (charset_has cs) t = true →
  n ≤ String.length (taken +:+ t) →
  k (taken +:+ t) s' = Some g →
  is_Some (greedy cs n k taken (t +:+ s')).
Proof.
  induction t as [|c t IH]; intros taken s' g Ht Hn Hk.
  - rewrite app_nil_r in Hn, Hk. rewrite app_nil_l.
    assert (Hstop : (if (n <=? String.length taken)%nat then k taken s' else None) = Some g).
    { by destruct (Nat.leb_spec n (String.length taken)); [|lia]. }
    destruct s' as [|c s']; simpl; [by rewrite Hstop|].
    destruct (charset_has cs c); [|by rewrite Hstop].
    destruct (greedy cs n k (taken +:+ one c) s'); [done|]. by rewrite Hstop.
  - simpl in Ht. apply andb_prop in Ht as [Hc Ht].
    rewrite app_cons. simpl. rewrite Hc.
    destruct (IH (taken +:+ one c) s' g Ht) as [g' ->]; [| |done];
      unfold one; by rewrite app_assoc.
Qed.

End Greedy.

Lemma extend_nil cur : extend cur "" = cur.
Proof. destruct cur; [|done]. simpl. by rewrite app_nil_r. Qed.

(** Soundness: a result of [exec] is a match. *)
Theorem exec_sound prog : ∀ pos s cur caps g,
  exec prog pos s cur caps = Some g → run prog pos s cur caps g.
Proof.
  induction prog as [|nd prog IH]; intros pos s cur caps g; simpl.
  - intros [= ->]. constructor.
  - destruct nd as [| |cs q| |].
    + destruct (decide (pos = 0)) as [->|]; [|done]. intros H. constructor. auto.
    + destruct (at_end s) eqn:He; [|done]. intros H. constructor; auto.
    + assert (Hmany : q ≠ Once →
        greedy cs (least q)
          (λ t s', exec prog (pos + String.length t) s' (extend cur t) caps) "" s = Some g →
        run (Chars cs q :: prog) pos s cur caps g).
      { intros Hq Hg. apply greedy_sound in Hg as (t & s' & -> & Ht & Hn & Hk).
        rewrite app_nil_l in Hn, Hk. apply run_many; auto. }
      destruct q; [|by apply Hmany..].
      destruct s as [|c s]; [done|]. destruct (charset_has cs c) eqn:Hc; [|done].
      intros H. apply run_one; auto.
    + destruct cur; [done|]. intros H. constructor. auto.
    + destruct cur; [|done]. intros H. constructor. auto.
Qed.

(** Completeness: when there is a match, [exec] returns one. *)
Theorem exec_complete prog pos s cur caps g :
  run prog pos s cur caps g → is_Some (exec prog pos s cur caps).
Proof.
  induction 1 as [ | ? ? ? ? ? _ IH | ? ? ? ? ? ? He _ IH
                 | ? ? ? ? ? ? ? ? Hc _ IH | ? ? q ? t ? ? ? ? Hq Ht Hn _ IH
                 | ? ? ? ? ? _ IH | ? ? ? ? ? ? _ IH ]; simpl; try done.
  - by rewrite He.
  - by rewrite Hc.
  - destruct IH as [g' Hg'].
    assert (is_Some (greedy cs (least q)
      (λ t s', exec prog (pos + String.length t) s' (extend cur t) caps) "" (t +:+ s))).
    { eapply greedy_complete; [done| |by rewrite app_nil_l]. by rewrite app_nil_l. }
    by destruct q.
Qed.

(** One step of reading a match of a known program backwards. *)
Ltac run_step :=
  match goal with
  | H : run (_ :: _) _ _ _ _ _ |- _ => inversion H; subst; clear H; try done
  | H : run [] _ _ _ _ _ |- _ => inversion H; subst; clear H
  end.

End ReFacts.

(** ** The rewrite rule *)

Module FixUrlFacts.

Import Str StrFacts Re ReFacts.

Lemma pattern_compiled : re_compile pattern = Some pattern_prog.
Proof. reflexivity. Qed.

Lemma none_of_one c s :
  all_chars (charset_has (NoneOf [c])) s = negb (has_char c s).
Proof.
  induction s as [|a s IH]; [done|]. simpl. rewrite IH.
  destruct (decide (a = c)) as [->|Hne].
  - rewrite bool_decide_eq_false_2; [done|]. intros H. apply H. by left.
  - rewrite bool_decide_eq_true_2; [done|]. by intros ->%list_elem_of_singleton.
Qed.

Lemma any_but_newline s :
  all_chars (charset_has AnyButNewline) s = negb (has_char LF s).
Proof. apply all_chars_has_char. Qed.

Lemma at_end_inv s : at_end s = true → s = "" ∨ s = one LF.
Proof.
  unfold at_end. intros [H|H]%orb_prop; apply bool_decide_eq_true in H; auto.
Qed.

(** What a match of [pattern] looks like. *)
Lemma pattern_match_inv s g :
  re_match pattern s = Some g →
  ∃ A p q rest nl,
    s = "/" +:+ A +:+ "/" +:+ p +:+ "_" +:+ q +:+ "/" +:+ rest +:+ nl ∧
    g = [A; p; q; rest] ∧
    (A ≠ "" ∧ slash_free A) ∧ (p ≠ "" ∧ slash_free p) ∧ (q ≠ "" ∧ slash_free q) ∧
    single_line rest ∧ (nl = "" ∨ nl = one LF).
Proof.
  unfold re_match. rewrite pattern_compiled. intros H.
  apply (exec_sound pattern_prog 0 s None []) in H.
  unfold pattern_prog in H. repeat run_step.
  repeat match goal with
  | H : charset_has (Literal _) _ = true |- _ => apply bool_decide_eq_true in H; subst
  | H : all_chars (charset_has (NoneOf [_])) _ = true |- _ =>
      rewrite none_of_one in H; apply negb_true_iff in H
  | H : all_chars (charset_has AnyButNewline) _ = true |- _ =>
      rewrite any_but_newline in H; apply negb_true_iff in H
  | H : least OneOrMore ≤ String.length ?t |- _ =>
      assert (t ≠ "") by (intros ->; simpl in H; lia); clear H
  | H : at_end _ = true |- _ => apply at_end_inv in H
  end.
  eexists _, _, _, _, _. split; [reflexivity|]. split; [reflexivity|]. done.
Qed.

(** Every text of that form is matched. *)
Lemma pattern_match_intro A p q rest nl :
  A ≠ "" → slash_free A → p ≠ "" → slash_free p → q ≠ "" → slash_free q →
  single_line rest → nl = "" ∨ nl = one LF →
  is_Some (re_match pattern
    ("/" +:+ A +:+ "/" +:+ p +:+ "_" +:+ q +:+ "/" +:+ rest +:+ nl)).
Proof.
  intros HA HA' Hp Hp' Hq Hq' Hrest Hnl.
  unfold re_match. rewrite pattern_compiled.
  apply (exec_complete pattern_prog 0 _ None [] [A; p; q; rest]).
  assert (Hseg : ∀ t, t ≠ "" → slash_free t →
    all_chars (charset_has (NoneOf ["/"%char])) t = true ∧
    least OneOrMore ≤ String.length t).
  { intros t Ht Ht'. rewrite none_of_one, Ht'. split; [done|].
    destruct t; [done|]. simpl. lia. }
  assert (Hext : ∀ t, extend (Some "") t = Some t) by done.
  unfold pattern_prog.
  apply run_start, (run_one _ _ _ "/"); [done|].
  apply run_open, run_many; [done|by apply Hseg..|]. rewrite Hext.
  apply run_close, (run_one _ _ _ "/"); [done|].
  apply run_open, run_many; [done|by apply Hseg..|]. rewrite Hext.
  apply run_close, (run_one _ _ _ "_"); [done|].
  apply run_open, run_many; [done|by apply Hseg..|]. rewrite Hext.
  apply run_close, (run_one _ _ _ "/"); [done|].
  apply run_open, run_many; [done| |simpl; lia|].
  { by rewrite any_but_newline, Hrest. }
  rewrite Hext. apply run_close, run_end; [|apply run_done].
  by destruct Hnl as [-> | ->].
Qed.

(** The cut of a matched text is the only one. *)
Lemma tail_unique rest nl rest' nl' :
  single_line rest → single_line rest' →
  nl = "" ∨ nl = one LF → nl' = "" ∨ nl' = one LF →
  rest +:+ nl = rest' +:+ nl' → rest = rest' ∧ nl = nl'.
Proof.
  unfold single_line. intros Hr Hr' [-> | ->] [-> | ->]; rewrite ?app_nil_r; intros Heq.
  - done.
  - subst rest. rewrite has_char_app in Hr. simpl in Hr. by rewrite orb_true_r in Hr.
  - subst rest'. rewrite has_char_app in Hr'. simpl in Hr'. by rewrite orb_true_r in Hr'.
  - unfold one in Heq. by apply first_cut in Heq as [-> _].
Qed.

Lemma slash_free_app s t : slash_free (s +:+ t) ↔ slash_free s ∧ slash_free t.
Proof. unfold slash_free. rewrite has_char_app. apply orb_false_iff. Qed.

Lemma slash_free_underscored p q :
  slash_free p → slash_free q → slash_free (p +:+ "_" +:+ q).
Proof. intros. rewrite !slash_free_app. done. Qed.

(** Two readings of one text as [/A/B/tail] with slash-free [A] and
    [B] agree. *)
Lemma four_part_unique A B tl A' B' tl' :
  slash_free A → slash_free B → slash_free A' → slash_free B' →
  four_part A B tl = four_part A' B' tl' → A = A' ∧ B = B' ∧ tl = tl'.
Proof.
  unfold four_part. intros HA HB HA' HB' Heq.
  rewrite !app_cons, !app_nil_l in Heq. injection Heq as Heq.
  apply first_cut in Heq as [-> Heq]; [|done..].
  apply first_cut in Heq as [-> ->]; done.
Qed.

Lemma trigger_test_spec seg : trigger_test seg = true ↔ triggered seg.
Proof. unfold trigger_test, triggered. by rewrite orb_true_iff, !str_in_spec. Qed.

(** The value of [fix_url_encoding] on every text the pattern matches. *)
Theorem fix_url_encoding_matched A B rest nl :
  A ≠ "" → slash_free A → slash_free B → underscored B →
  single_line rest → nl = "" ∨ nl = one LF →
  fix_url_encoding (four_part A B (rest +:+ nl))
  = if trigger_test B then rewritten A B rest else four_part A B (rest +:+ nl).
Proof.
  intros HA HA' HB (p & q & Hp & Hq & ->) Hrest Hnl.
  apply slash_free_app in HB as [Hp' [_ Hq']%slash_free_app].
  destruct (pattern_match_intro A p q rest nl) as [g Hg]; try done.
  assert (Hpath : four_part A (p +:+ "_" +:+ q) (rest +:+ nl)
    = "/" +:+ A +:+ "/" +:+ p +:+ "_" +:+ q +:+ "/" +:+ rest +:+ nl).
  { unfold four_part. by rewrite !app_assoc. }
  unfold fix_url_encoding. rewrite Hpath, Hg.
  apply pattern_match_inv in Hg
    as (A' & p' & q' & rest' & nl' & Heq & -> & [_ HA''] & [_ Hp''] & [_ Hq''] & Hrest' & Hnl').
  assert (Hpath' : "/" +:+ A' +:+ "/" +:+ p' +:+ "_" +:+ q' +:+ "/" +:+ rest' +:+ nl'
    = four_part A' (p' +:+ "_" +:+ q') (rest' +:+ nl')).
  { unfold four_part. by rewrite !app_assoc. }
  rewrite <- Hpath, Hpath' in Heq.
  apply four_part_unique in Heq as (<- & HB & Htl); auto using slash_free_underscored.
  apply tail_unique in Htl as [<- <-]; [|done..].
  fold (trigger_test (p' +:+ "_" +:+ q')). rewrite HB.
  destruct (trigger_test (p' +:+ "_" +:+ q')); [|done].
  unfold rewritten. by rewrite !app_assoc.
Qed.

(** Without a match the path comes back as it is. *)
Lemma fix_url_encoding_no_match path :
  re_match pattern path = None → fix_url_encoding path = path.
Proof. unfold fix_url_encoding. by intros ->. Qed.

(** A matched path, read as the four parts of the specification. *)
Lemma pattern_match_four_part path g :
  re_match pattern path = Some g →
  ∃ A B rest nl,
    path = four_part A B (rest +:+ nl) ∧
    A ≠ "" ∧ slash_free A ∧ slash_free B ∧ underscored B ∧
    single_line rest ∧ (nl = "" ∨ nl = one LF).
Proof.
  intros (A & p & q & rest & nl & -> & _ & [HA HA'] & [Hp Hp'] & [Hq Hq'] & Hr & Hnl)
    %pattern_match_inv.
  exists A, (p +:+ "_" +:+ q), rest, nl. split.
  { unfold four_part. by rewrite !app_assoc. }
  repeat split; auto using slash_free_underscored. by exists p, q.
Qed.

(** [$] also holds just before a final line feed, which [.*] leaves
    out of the last group: a rewritten path loses it. *)
Lemma fix_url_encoding_final_line_feed A B rest :
  A ≠ "" → slash_free A → slash_free B → underscored B → triggered B →
  single_line rest →
  fix_url_encoding (four_part A B (rest +:+ one LF)) = rewritten A B rest.
Proof.
  intros HA HA' HB Hu Ht%trigger_test_spec Hr.
  rewrite fix_url_encoding_matched by auto. by rewrite Ht.
Qed.

Lemma not_triggered seg : ¬ triggered seg ↔ trigger_test seg = false.
Proof. rewrite <- trigger_test_spec. by destruct (trigger_test seg). Qed.

End FixUrlFacts.


(** ** Claims about [fix_url_encoding] *)

Module FixUrlClaims.

Import Str StrFacts Re ReFacts FixUrlFacts.

(** C1, as stated, fails on the code. The pattern asks for one or more
    characters in the first segment, so a path whose first segment is
    empty is not matched and comes back unchanged; and [.] refuses the
    line feed, so a tail that holds one inside is not matched either.
    Both paths below meet every condition of the claim and are
    returned as they are, not rewritten. *)
Lemma fix_url_encoding_C1_counterexample :
  (slash_free "" ∧ slash_free "CT_BRAIN_x" ∧ underscored "CT_BRAIN_x" ∧
   triggered "CT_BRAIN_x" ∧
   fix_url_encoding (four_part "" "CT_BRAIN_x" "y") = "//CT_BRAIN_x/y" ∧
   fix_url_encoding (four_part "" "CT_BRAIN_x" "y") ≠ rewritten "" "CT_BRAIN_x" "y")
  ∧
  (slash_free "A" ∧ slash_free "CT_BRAIN_x" ∧ underscored "CT_BRAIN_x" ∧
   triggered "CT_BRAIN_x" ∧
   fix_url_encoding (four_part "A" "CT_BRAIN_x" ("a" +:+ one LF +:+ "b"))
     = four_part "A" "CT_BRAIN_x" ("a" +:+ one LF +:+ "b") ∧
   fix_url_encoding (four_part "A" "CT_BRAIN_x" ("a" +:+ one LF +:+ "b"))
     ≠ rewritten "A" "CT_BRAIN_x" ("a" +:+ one LF +:+ "b")).
Proof.
  assert (Hu : underscored "CT_BRAIN_x") by (by exists "CT", "BRAIN_x").
  assert (Ht : triggered "CT_BRAIN_x") by (left; by exists "", "_x").
  repeat split; try done; by vm_compute.
Qed.

(** C1 (amended): for every path ['/' + segmentA + '/' + segmentB + '/'
    + rest] where segmentA is not empty, segmentA and segmentB contain
    no ['/'], segmentB has an underscore with at least one character
    on each side and contains ['CT_BRAIN'] or
    ['multiclass_segmentation'], and rest contains no line feed,
    [fix_url_encoding] returns ['/' + segmentA + '%252F' + segmentB +
    '/' + rest]: the second ['/'] replaced, every other character
    kept. *)
Theorem fix_url_encoding_rewrites segA segB rest :
  segA ≠ "" → slash_free segA → slash_free segB → underscored segB →
  triggered segB → single_line rest →
  fix_url_encoding (four_part segA segB rest) = rewritten segA segB rest.
Proof.
  intros HA HA' HB Hu Ht%trigger_test_spec Hr.
  pose proof (fix_url_encoding_matched segA segB rest "" HA HA' HB Hu Hr) as H.
  rewrite app_nil_r, Ht in H. auto.
Qed.

(** The example of the specification, an instance of the theorem. *)
Lemma fix_url_encoding_rewrites_witness :
  fix_url_encoding "/3D Brainz/CT_BRAIN_multiclass_segmentation/task123/model.pt"
  = "/3D Brainz%252FCT_BRAIN_multiclass_segmentation/task123/model.pt".
Proof.
  apply (fix_url_encoding_rewrites
           "3D Brainz" "CT_BRAIN_multiclass_segmentation" "task123/model.pt").
  - discriminate.
  - reflexivity.
  - reflexivity.
  - exists "CT", "BRAIN_multiclass_segmentation". repeat split; discriminate.
  - left. exists "", "_multiclass_segmentation". reflexivity.
  - reflexivity.
Defined.

(** C5: a string that is not of the four-part shape, or that is of
    that shape with a second segment containing neither trigger word,
    is returned unchanged. *)
Theorem fix_url_encoding_unchanged path :
  (¬ four_part_shape path ∨
   ∃ segA segB rest,
     path = four_part segA segB rest ∧
     slash_free segA ∧ slash_free segB ∧ underscored segB ∧ ¬ triggered segB) →
  fix_url_encoding path = path.
Proof.
  intros Hpath.
  destruct (re_match pattern path) as [g|] eqn:Hg;
    [|by apply fix_url_encoding_no_match].
  destruct (pattern_match_four_part _ _ Hg)
    as (A & B & rest & nl & -> & HA & HA' & HB & Hu & Hr & Hnl).
  destruct Hpath as [Hno | (A' & B' & rest' & Heq & HA'' & HB' & _ & Hnt)].
  - destruct Hno. by exists A, B, (rest +:+ nl).
  - apply four_part_unique in Heq as (_ & -> & _); [|done..].
    rewrite fix_url_encoding_matched by done.
    apply not_triggered in Hnt. by rewrite Hnt.
Qed.

Lemma fix_url_encoding_unchanged_witness :
  fix_url_encoding "/foo/bar_baz/qux" = "/foo/bar_baz/qux".
Proof.
  apply (fix_url_encoding_unchanged "/foo/bar_baz/qux").
  right. exists "foo", "bar_baz", "qux".
  split; [reflexivity|]. split; [reflexivity|]. split; [reflexivity|]. split.
  - exists "bar", "baz". repeat split; discriminate.
  - apply not_triggered. reflexivity.
Defined.

(** C9, as stated, fails on the code for the same reason as C1: with
    an empty first segment the pattern does not match, and the path
    comes back unchanged although its second segment is underscored
    and holds a trigger word. *)
Lemma fix_url_encoding_C9_counterexample :
  slash_free "" ∧ slash_free "CT_BRAIN_x" ∧ underscored "CT_BRAIN_x" ∧
  triggered "CT_BRAIN_x" ∧
  fix_url_encoding ("/" +:+ "" +:+ "/" +:+ "CT_BRAIN_x" +:+ "/") = "//CT_BRAIN_x/" ∧
  fix_url_encoding ("/" +:+ "" +:+ "/" +:+ "CT_BRAIN_x" +:+ "/")
    ≠ "/" +:+ "" +:+ "%252F" +:+ "CT_BRAIN_x" +:+ "/".
Proof.
  assert (Hu : underscored "CT_BRAIN_x") by (by exists "CT", "BRAIN_x").
  assert (Ht : triggered "CT_BRAIN_x") by (left; by exists "", "_x").
  repeat split; try done; by vm_compute.
Qed.

(** C9 (amended): the tail may be empty. For every path ['/' +
    segmentA + '/' + segmentB + '/'] where segmentA is not empty,
    neither segment contains ['/'], and segmentB is underscored and
    holds a trigger word, [fix_url_encoding] returns ['/' + segmentA +
    '%252F' + segmentB + '/']. *)
Theorem fix_url_encoding_empty_tail segA segB :
  segA ≠ "" → slash_free segA → slash_free segB → underscored segB →
  triggered segB →
  fix_url_encoding ("/" +:+ segA +:+ "/" +:+ segB +:+ "/")
  = "/" +:+ segA +:+ "%252F" +:+ segB +:+ "/".
Proof.
  intros HA HA' HB Hu Ht%trigger_test_spec.
  pose proof (fix_url_encoding_matched segA segB "" "" HA HA' HB Hu) as H.
  unfold four_part, rewritten in H. rewrite Ht in H. apply H; [done | by left].
Qed.

Lemma fix_url_encoding_empty_tail_witness :
  fix_url_encoding "/A/CT_BRAIN_x/" = "/A%252FCT_BRAIN_x/".
Proof.
  apply (fix_url_encoding_empty_tail "A" "CT_BRAIN_x").
  - discriminate.
  - reflexivity.
  - reflexivity.
  - exists "CT", "BRAIN_x". repeat split; discriminate.
  - left. exists "", "_x". reflexivity.
Defined.

(** C10: a string that does not begin with ['/'] is returned
    unchanged, whatever it contains. *)
Theorem fix_url_encoding_leading_slash path :
  (∀ tl, path ≠ "/" +:+ tl) → fix_url_encoding path = path.
Proof.
  intros Hno.
  destruct (re_match pattern path) as [g|] eqn:Hg;
    [|by apply fix_url_encoding_no_match].
  apply pattern_match_inv in Hg as (A & p & q & rest & nl & -> & _).
  by destruct (Hno (A +:+ "/" +:+ p +:+ "_" +:+ q +:+ "/" +:+ rest +:+ nl)).
Qed.

Lemma fix_url_encoding_leading_slash_witness :
  fix_url_encoding "3D Brainz/CT_BRAIN_multiclass_segmentation/task123/model.pt"
  = "3D Brainz/CT_BRAIN_multiclass_segmentation/task123/model.pt".
Proof.
  apply (fix_url_encoding_leading_slash
           "3D Brainz/CT_BRAIN_multiclass_segmentation/task123/model.pt").
  intros tl. discriminate.
Defined.

End FixUrlClaims.

(** ** The relay *)

Module RelayFacts.

Import Str StrFacts Re ReFacts.

Section Handler.

Variables (host : string) (port : Z).
Variable upstream : RequestsCall → UpstreamResponse + (requests_failure * string).

(** An answered call: the handler returns, having made that one call. *)
Lemma proxy_request_answered request path r calls :
  upstream (forwarded_call host port request path) = inl r →
  proxy_request host port upstream request path calls
  = (Returned {| content := BodyBytes (up_content r);
                 status_code := up_status_code r;
                 headers := relay_headers (up_headers r) |},
     calls ++ [forwarded_call host port request path]).
Proof.
  intros Hup.
  unfold proxy_request, try_except, sync_request, requests_request, mbind, M_bind.
  fold (forwarded_call host port request path). by rewrite Hup.
Qed.

(** A failed call: the exception of [requests] is not one the
    [except] clause catches, and leaves the handler. *)
Lemma proxy_request_failed request path kind message calls :
  upstream (forwarded_call host port request path) = inr (kind, message) →
  proxy_request host port upstream request path calls
  = (Raised (RequestsException kind message),
     calls ++ [forwarded_call host port request path]).
Proof.
  intros Hup.
  unfold proxy_request, try_except, sync_request, requests_request, mbind, M_bind.
  fold (forwarded_call host port request path). by rewrite Hup.
Qed.

(** The handler never answers 502: what it returns is the upstream's
    answer, and what the upstream does not answer it raises. *)
Lemma proxy_request_outcome request path calls :
  (∃ r, upstream (forwarded_call host port request path) = inl r ∧
        (proxy_request host port upstream request path calls).1
        = Returned {| content := BodyBytes (up_content r);
                      status_code := up_status_code r;
                      headers := relay_headers (up_headers r) |})
  ∨ (∃ kind message,
        (proxy_request host port upstream request path calls).1
        = Raised (RequestsException kind message)).
Proof.
  destruct (upstream (forwarded_call host port request path)) as [r|[kind message]] eqn:Hup.
  - left. exists r. split; [done|]. by rewrite (proxy_request_answered _ _ r).
  - right. exists kind, message. by rewrite (proxy_request_failed _ _ kind message).
Qed.

End Handler.

(** *** Headers *)

Lemma relay_headers_allow_origin h :
  relay_headers h !! "Access-Control-Allow-Origin" = Some "*".
Proof. unfold relay_headers. by simplify_map_eq. Qed.

Lemma relay_headers_allow_methods h :
  relay_headers h !! "Access-Control-Allow-Methods" = Some "GET, POST, OPTIONS, DELETE, PUT".
Proof. unfold relay_headers. by simplify_map_eq. Qed.

Lemma relay_headers_allow_headers h :
  relay_headers h !! "Access-Control-Allow-Headers"
  = Some (String.concat ","
      ["DNT"; "User-Agent"; "X-Requested-With"; "If-Modified-Since";
       "Cache-Control"; "Content-Type"; "Range"; "Authorization"]).
Proof. unfold relay_headers. by simplify_map_eq. Qed.

(** The two names are removed in lower case. *)
Lemma relay_headers_lower_case_dropped h :
  relay_headers h !! "connection" = None ∧
  relay_headers h !! "transfer-encoding" = None.
Proof. unfold relay_headers. split; by simplify_map_eq. Qed.

(** Every key other than the two removed and the three set is passed
    through from the upstream's headers as [dict] lists them. *)
Lemma relay_headers_other h k :
  k ∉ ["connection"; "transfer-encoding"; "Access-Control-Allow-Origin";
       "Access-Control-Allow-Methods"; "Access-Control-Allow-Headers"] →
  relay_headers h !! k = dict_of_ci h !! k.
Proof.
  intros Hk. unfold relay_headers.
  rewrite !lookup_insert_ne, !lookup_delete_ne; [done|..];
    intros <-; apply Hk; set_solver.
Qed.

(** *** Routing *)

(** The paths of the health route are paths of the catch-all route. *)
Lemma health_path_inv path g :
  re_match "^/health$" path = Some g →
  path = "/health" ∨ path = "/health" +:+ one LF.
Proof.
  intros H. apply (exec_sound _ 0 path None []) in H.
  repeat run_step.
  repeat match goal with
  | H : charset_has (Literal _) _ = true |- _ => apply bool_decide_eq_true in H; subst
  end.
  match goal with H : at_end _ = true |- _ => unfold at_end in H; apply orb_prop in H as [H|H];
    apply bool_decide_eq_true in H; subst end; auto.
Qed.

(** No request reaches [health_check]: the catch-all route is listed
    before the health route and takes every request the health route
    would take. *)
Theorem health_check_unreachable method path params :
  dispatch method path ≠ Routed HealthCheck params.
Proof.
  unfold dispatch, routes. cbn [dispatch_from].
  repeat match goal with
  | |- context [matches ?r method path] =>
      let Hm := fresh "Hm" in
      destruct (matches r method path) eqn:Hm; cbn [route_endpoint]; try done
  end.
  all: repeat match goal with
  | H : matches _ _ _ = _ |- _ =>
      unfold matches in H; cbn [route_regex route_methods] in H
  end.
  all: match goal with
  | H : context [re_match "^/health$" ?p] |- _ =>
      destruct (re_match "^/health$" p) eqn:Hh; [|done]
  end.
  all: apply health_path_inv in Hh as [-> | ->].
  all: match goal with
  | H : context [bool_decide (?m ∈ ["GET"])] |- _ =>
      destruct (decide (m ∈ ["GET"])) as [->%list_elem_of_singleton|];
        [|by rewrite bool_decide_eq_false_2 in H]
  end.
  all: by vm_compute in Hm3.
Qed.

End RelayFacts.

(** ** Claims about the relay *)

Module RelayClaims.

Import Str StrFacts RelayFacts.

(** C2: the claim asks for a 502 reply when the upstream call fails;
    the code does not give it. The call is made with [requests], whose
    exceptions the clause [except httpx.RequestError] does not catch:
    with an unreachable upstream the handler ends with the
    [ConnectionError] raised, after its one call, and returns no
    response. *)
Theorem transport_failure_not_handled :
  proxy_request "fileserver" 8081 Sample.unreachable (Sample.get "") "models/a.pt" []
  = (Raised (RequestsException ConnectionError "Connection refused"),
     [forwarded_call "fileserver" 8081 (Sample.get "") "models/a.pt"])
  ∧ ∀ r calls,
      proxy_request "fileserver" 8081 Sample.unreachable (Sample.get "") "models/a.pt" []
      ≠ (Returned r, calls).
Proof.
  assert (H := proxy_request_failed "fileserver" 8081 Sample.unreachable
                 (Sample.get "") "models/a.pt" ConnectionError "Connection refused" []
                 eq_refl).
  split; [exact H|]. intros r calls. by rewrite H.
Qed.

(** C3: the claim asks that [GET /health] be answered by the service
    itself; the code does not do it. The catch-all route is registered
    first, so the request is handed to [proxy_request] with the path
    [health] and forwarded: the reply is the upstream's (here a 404),
    and one upstream call is made. *)
Theorem health_request_is_forwarded :
  dispatch "GET" "/health" = Routed ProxyRequest ["health"]
  ∧ ∃ r,
      app "fileserver" 8081 Sample.no_such_file (Sample.get "") "/health" []
      = (Returned (Relayed r),
         [forwarded_call "fileserver" 8081 (Sample.get "") "health"])
      ∧ status_code r = 404%Z
      ∧ call_url (forwarded_call "fileserver" 8081 (Sample.get "") "health")
        = "http://fileserver:8081/health".
Proof.
  split; [by vm_compute|].
  eexists. split.
  - unfold app.
    replace (dispatch _ _) with (Routed ProxyRequest ["health"]) by by vm_compute.
    unfold mbind, M_bind.
    by rewrite (proxy_request_answered _ _ _ _ _ _ _ eq_refl).
  - split; [reflexivity | by vm_compute].
Qed.

(** C4: the claim asks that [Connection] and [Transfer-Encoding] be
    removed whatever their case; the code does not do it. The headers
    are copied into a plain [dict] keyed by the names as the upstream
    spelled them, and the two [pop] calls name the lower-case keys
    only: headers sent as [Connection] and [Transfer-Encoding] stay in
    the relayed response. *)
Theorem capitalised_hop_headers_are_relayed :
  ∃ r calls,
    proxy_request "fileserver" 8081 Sample.keep_alive (Sample.get "") "models/a.pt" []
    = (Returned r, calls)
    ∧ headers r !! "Connection" = Some "keep-alive"
    ∧ headers r !! "Transfer-Encoding" = Some "chunked".
Proof.
  eexists _, _. split.
  - by rewrite (proxy_request_answered _ _ _ _ _ _ _ eq_refl).
  - split; by vm_compute.
Qed.

(** C6: every relayed upstream response carries
    [Access-Control-Allow-Origin: *], [Access-Control-Allow-Methods:
    GET, POST, OPTIONS, DELETE, PUT] and an
    [Access-Control-Allow-Headers] that lists DNT, User-Agent,
    X-Requested-With, If-Modified-Since, Cache-Control, Content-Type,
    Range and Authorization, whatever headers the upstream sent. *)
Theorem relayed_response_has_cors host port upstream request path r :
  upstream (forwarded_call host port request path) = inl r →
  ∃ resp calls,
    proxy_request host port upstream request path [] = (Returned resp, calls)
    ∧ headers resp !! "Access-Control-Allow-Origin" = Some "*"
    ∧ headers resp !! "Access-Control-Allow-Methods"
      = Some "GET, POST, OPTIONS, DELETE, PUT"
    ∧ headers resp !! "Access-Control-Allow-Headers"
      = Some (String.concat ","
          ["DNT"; "User-Agent"; "X-Requested-With"; "If-Modified-Since";
           "Cache-Control"; "Content-Type"; "Range"; "Authorization"]).
Proof.
  intros Hup. eexists _, _. split; [by apply proxy_request_answered|].
  cbn [headers].
  auto using relay_headers_allow_origin, relay_headers_allow_methods,
    relay_headers_allow_headers.
Qed.

Lemma relayed_response_has_cors_witness :
  ∃ resp calls,
    proxy_request "fileserver" 8081 Sample.keep_alive (Sample.get "") "models/a.pt" []
    = (Returned resp, calls)
    ∧ headers resp !! "Access-Control-Allow-Origin" = Some "*"
    ∧ headers resp !! "Access-Control-Allow-Methods"
      = Some "GET, POST, OPTIONS, DELETE, PUT"
    ∧ headers resp !! "Access-Control-Allow-Headers"
      = Some (String.concat ","
          ["DNT"; "User-Agent"; "X-Requested-With"; "If-Modified-Since";
           "Cache-Control"; "Content-Type"; "Range"; "Authorization"]).
Proof.
  apply (relayed_response_has_cors "fileserver" 8081 Sample.keep_alive
           (Sample.get "") "models/a.pt"
           {| up_status_code := 200;
              up_headers := ci_of_list [("Content-Type", "application/octet-stream");
                                        ("Connection", "keep-alive");
                                        ("Transfer-Encoding", "chunked")];
              up_content := [] |}).
  reflexivity.
Defined.

(** Whatever the upstream answers, a redirect included, the relay makes
    one call, with redirects not followed, and returns a response with
    the status code of the answer and, as content, [response.content]:
    the body as [requests] hands it over. *)
Theorem relay_copies_status_and_body host port upstream request path r :
  upstream (forwarded_call host port request path) = inl r →
  ∃ resp call,
    proxy_request host port upstream request path [] = (Returned resp, [call])
    ∧ status_code resp = up_status_code r
    ∧ content resp = BodyBytes (up_content r)
    ∧ call_allow_redirects call = false.
Proof.
  intros Hup. eexists _, _.
  split; [exact (proxy_request_answered _ _ _ _ _ r [] Hup)|]. done.
Qed.

Lemma relay_copies_status_and_body_witness :
  ∃ resp call,
    proxy_request "fileserver" 8081 Sample.redirecting (Sample.get "") "models/a.pt" []
    = (Returned resp, [call])
    ∧ status_code resp = 302%Z
    ∧ content resp = BodyBytes []
    ∧ call_allow_redirects call = false.
Proof.
  apply (relay_copies_status_and_body "fileserver" 8081 Sample.redirecting
           (Sample.get "") "models/a.pt"
           {| up_status_code := 302;
              up_headers := ci_of_list [("Location", "http://elsewhere/model.pt");
                                        ("Content-Length", "0")];
              up_content := [] |}).
  reflexivity.
Defined.


End RelayClaims.

(** ** More on the rewrite rule *)

Module FixUrlMore.

Import Str StrFacts Re ReFacts FixUrlFacts.

Lemma app_not_empty_r s t : t ≠ "" → s +:+ t ≠ "".
Proof. destruct s; [done|]. by rewrite app_cons. Qed.

Lemma app_not_empty_l s t : s ≠ "" → s +:+ t ≠ "".
Proof. destruct s; [done|]. by rewrite app_cons. Qed.

(** Both trigger words have an underscore inside, so a segment that
    holds one is underscored. *)
Lemma triggered_underscored seg : triggered seg → underscored seg.
Proof.
  intros [(a & b & ->) | (a & b & ->)].
  - exists (a +:+ "CT"), ("BRAIN" +:+ b). split; [by apply app_not_empty_r|].
    split; [done|]. by rewrite !app_assoc.
  - exists (a +:+ "multiclass"), ("segmentation" +:+ b).
    split; [by apply app_not_empty_r|]. split; [done|]. by rewrite !app_assoc.
Qed.

(** A rewritten path differs from the path it was made from. *)
Lemma rewritten_differs A B tl tl' : rewritten A B tl ≠ four_part A B tl'.
Proof.
  unfold rewritten, four_part. rewrite !app_cons, !app_nil_l.
  intros [= H]. by apply app_inv_head in H.
Qed.

Lemma triggered_rewrites segA segB rest :
  segA ≠ "" → slash_free segA → slash_free segB → triggered segB →
  single_line rest →
  fix_url_encoding (four_part segA segB rest) = rewritten segA segB rest.
Proof.
  intros HA HA' HB Ht Hr.
  pose proof (fix_url_encoding_matched segA segB rest "" HA HA' HB
                (triggered_underscored _ Ht) Hr) as H.
  apply trigger_test_spec in Ht. rewrite app_nil_r, Ht in H. auto.
Qed.

(** The underscore of the pattern never stands in the way of a trigger
    word: every path [/segmentA/segmentB/rest] with a non-empty first
    segment, a second segment that holds a trigger word, and a rest on
    one line is rewritten. *)
Theorem fix_url_encoding_triggered segA segB rest :
  segA ≠ "" → slash_free segA → slash_free segB → triggered segB →
  single_line rest →
  fix_url_encoding (four_part segA segB rest) = rewritten segA segB rest.
Proof.
  intros HA HA' HB Ht Hr.
  assert (Hu : underscored segB) by by apply triggered_underscored.
  pose proof (fix_url_encoding_matched segA segB rest "" HA HA' HB Hu Hr) as H.
  apply trigger_test_spec in Ht. rewrite app_nil_r, Ht in H.
  apply H. by left.
Qed.

Lemma fix_url_encoding_triggered_witness :
  fix_url_encoding "/A/xCT_BRAIN/rest/of/path" = "/A%252FxCT_BRAIN/rest/of/path".
Proof.
  apply (fix_url_encoding_triggered "A" "xCT_BRAIN" "rest/of/path").
  - discriminate.
  - reflexivity.
  - reflexivity.
  - left. exists "x", "". reflexivity.
  - reflexivity.
Defined.

(** The paths [fix_url_encoding] changes are exactly those of the form
    [/segmentA/segmentB/rest], possibly followed by one final line
    feed, with a non-empty first segment, a second segment that holds a
    trigger word, and a rest on one line; and the result for such a
    path is the rewritten path without the final line feed. *)
Theorem fix_url_encoding_changes_iff path :
  (fix_url_encoding path ≠ path ↔
   ∃ segA segB rest nl,
     path = four_part segA segB (rest +:+ nl) ∧
     segA ≠ "" ∧ slash_free segA ∧ slash_free segB ∧ triggered segB ∧
     single_line rest ∧ (nl = "" ∨ nl = one LF))
  ∧
  (∀ segA segB rest nl,
     path = four_part segA segB (rest +:+ nl) →
     segA ≠ "" → slash_free segA → slash_free segB → triggered segB →
     single_line rest → nl = "" ∨ nl = one LF →
     fix_url_encoding path = rewritten segA segB rest).
Proof.
  assert (Hval : ∀ A B rest nl,
    path = four_part A B (rest +:+ nl) →
    A ≠ "" → slash_free A → slash_free B → triggered B →
    single_line rest → nl = "" ∨ nl = one LF →
    fix_url_encoding path = rewritten A B rest).
  { intros A B rest nl -> HA HA' HB Ht Hr Hnl.
    rewrite fix_url_encoding_matched by auto using triggered_underscored.
    apply trigger_test_spec in Ht. by rewrite Ht. }
  split; [|exact Hval]. split.
  - intros Hne.
    destruct (re_match pattern path) as [g|] eqn:Hg;
      [|by destruct Hne; apply fix_url_encoding_no_match].
    destruct (pattern_match_four_part _ _ Hg)
      as (A & B & rest & nl & -> & HA & HA' & HB & Hu & Hr & Hnl).
    rewrite fix_url_encoding_matched in Hne by done.
    destruct (trigger_test B) eqn:Ht; [|done].
    exists A, B, rest, nl. apply trigger_test_spec in Ht. done.
  - intros (A & B & rest & nl & Heq & HA & HA' & HB & Ht & Hr & Hnl).
    rewrite (Hval A B rest nl) by done. rewrite Heq. apply rewritten_differs.
Qed.

Lemma fix_url_encoding_changes_iff_witness :
  fix_url_encoding ("/A/CT_BRAIN_x/model.pt" +:+ one LF) ≠ "/A/CT_BRAIN_x/model.pt" +:+ one LF
  ∧ fix_url_encoding ("/A/CT_BRAIN_x/model.pt" +:+ one LF) = "/A%252FCT_BRAIN_x/model.pt".
Proof.
  assert (Ht : triggered "CT_BRAIN_x") by (left; exists "", "_x"; reflexivity).
  destruct (fix_url_encoding_changes_iff ("/A/CT_BRAIN_x/model.pt" +:+ one LF))
    as [Hiff Hval].
  split.
  - apply Hiff. exists "A", "CT_BRAIN_x", "model.pt", (one LF).
    split; [reflexivity|]. split; [discriminate|].
    split; [reflexivity|]. split; [reflexivity|]. split; [exact Ht|].
    split; [reflexivity|]. right. reflexivity.
  - apply (Hval "A" "CT_BRAIN_x" "model.pt" (one LF)).
    + reflexivity.
    + discriminate.
    + reflexivity.
    + reflexivity.
    + exact Ht.
    + reflexivity.
    + right. reflexivity.
Defined.

(** A final line feed after the rest is dropped by the rewrite. *)
Theorem fix_url_encoding_drops_final_line_feed segA segB rest :
  segA ≠ "" → slash_free segA → slash_free segB → triggered segB →
  single_line rest →
  fix_url_encoding (four_part segA segB (rest +:+ one LF)) = rewritten segA segB rest.
Proof.
  intros HA HA' HB Ht Hr.
  apply fix_url_encoding_final_line_feed; auto using triggered_underscored.
Qed.

Lemma fix_url_encoding_drops_final_line_feed_witness :
  fix_url_encoding ("/A/CT_BRAIN_x/model.pt" +:+ one LF) = "/A%252FCT_BRAIN_x/model.pt".
Proof.
  apply (fix_url_encoding_drops_final_line_feed "A" "CT_BRAIN_x" "model.pt").
  - discriminate.
  - reflexivity.
  - reflexivity.
  - left. exists "", "_x". reflexivity.
  - reflexivity.
Defined.

(** A path with fewer than three ['/'] is left alone. *)
Lemma two_slashes_unchanged a b c :
  slash_free a → slash_free b → slash_free c →
  fix_url_encoding ("/" +:+ a +:+ "/" +:+ b +:+ c) = "/" +:+ a +:+ "/" +:+ b +:+ c.
Proof.
  intros Ha Hb Hc.
  destruct (re_match pattern ("/" +:+ a +:+ "/" +:+ b +:+ c)) as [g|] eqn:Hg;
    [|by apply fix_url_encoding_no_match].
  destruct (pattern_match_four_part _ _ Hg)
    as (A & B & rest & nl & Heq & _ & HA' & HB & _).
  unfold four_part in Heq. rewrite !app_cons, !app_nil_l in Heq.
  injection Heq as Heq. apply first_cut in Heq as [-> Heq]; [|done..].
  assert (Hf : slash_free (b +:+ c)) by by apply slash_free_app.
  rewrite Heq in Hf. apply slash_free_app in Hf as [_ Hf]. done.
Qed.

(** Rewriting is idempotent on a path whose rest has no further ['/']:
    the rewritten path has two slashes left and the pattern needs
    three. *)
Theorem fix_url_encoding_idempotent_on_leaf segA segB rest :
  segA ≠ "" → slash_free segA → slash_free segB → triggered segB →
  single_line rest → slash_free rest →
  fix_url_encoding (fix_url_encoding (four_part segA segB rest))
  = fix_url_encoding (four_part segA segB rest).
Proof.
  intros HA HA' HB Ht Hr Hs.
  rewrite triggered_rewrites by done.
  unfold rewritten.
  replace ("/" +:+ segA +:+ "%252F" +:+ segB +:+ "/" +:+ rest)
    with ("/" +:+ (segA +:+ "%252F" +:+ segB) +:+ "/" +:+ rest +:+ "")
    by by rewrite !app_assoc, app_nil_r.
  apply two_slashes_unchanged; [|done..].
  apply slash_free_app. split; [done|]. by apply slash_free_app.
Qed.

Lemma fix_url_encoding_idempotent_on_leaf_witness :
  fix_url_encoding (fix_url_encoding "/A/CT_BRAIN_x/model.pt")
  = fix_url_encoding "/A/CT_BRAIN_x/model.pt".
Proof.
  apply (fix_url_encoding_idempotent_on_leaf "A" "CT_BRAIN_x" "model.pt").
  - discriminate.
  - reflexivity.
  - reflexivity.
  - left. exists "", "_x". reflexivity.
  - reflexivity.
  - reflexivity.
Defined.

(** Rewriting is not idempotent in general: when the rest begins with
    another segment that holds a trigger word, a second pass encodes
    the next ['/'] as well. *)
Theorem fix_url_encoding_twice segA segB segC rest :
  segA ≠ "" → slash_free segA → slash_free segB → triggered segB →
  slash_free segC → triggered segC → single_line segC → single_line rest →
  fix_url_encoding (fix_url_encoding (four_part segA segB (segC +:+ "/" +:+ rest)))
  = "/" +:+ segA +:+ "%252F" +:+ segB +:+ "%252F" +:+ segC +:+ "/" +:+ rest.
Proof.
  intros HA HA' HB Ht HC HtC HlC Hr.
  rewrite triggered_rewrites; [|done..|].
  2:{ unfold single_line in *. by rewrite !has_char_app, HlC, Hr. }
  replace (rewritten segA segB (segC +:+ "/" +:+ rest))
    with (four_part (segA +:+ "%252F" +:+ segB) segC rest)
    by (unfold rewritten, four_part; by rewrite !app_assoc).
  rewrite triggered_rewrites; [|try done..].
  - unfold rewritten. by rewrite !app_assoc.
  - by apply app_not_empty_l.
  - apply slash_free_app. split; [done|]. by apply slash_free_app.
Qed.

Lemma fix_url_encoding_twice_witness :
  fix_url_encoding (fix_url_encoding "/A/CT_BRAIN_x/CT_BRAIN_y/model.pt")
  = "/A%252FCT_BRAIN_x%252FCT_BRAIN_y/model.pt".
Proof.
  apply (fix_url_encoding_twice "A" "CT_BRAIN_x" "CT_BRAIN_y" "model.pt").
  - discriminate.
  - reflexivity.
  - reflexivity.
  - left. exists "", "_x". reflexivity.
  - reflexivity.
  - left. exists "", "_y". reflexivity.
  - reflexivity.
  - reflexivity.
Defined.

End FixUrlMore.

(** ** More on the relay *)

Module RelayMore.

Import Str StrFacts Re ReFacts RelayFacts.

(** *** The handler *)

(** Whatever the upstream does, the handler makes exactly one call to
    it: there is no retry after a failure and no second request after a
    redirect. *)
Theorem proxy_request_calls_once host port upstream request path calls :
  (proxy_request host port upstream request path calls).2
  = calls ++ [forwarded_call host port request path].
Proof.
  destruct (upstream (forwarded_call host port request path)) as [r|[kind message]] eqn:Hup.
  - by rewrite (proxy_request_answered _ _ _ _ _ r).
  - by rewrite (proxy_request_failed _ _ _ _ _ kind message).
Qed.

(** Every failure of [requests.request] leaves the handler as the
    exception it is: none is turned into a response. *)
Theorem upstream_failure_propagates host port upstream request path kind message calls :
  upstream (forwarded_call host port request path) = inr (kind, message) →
  (proxy_request host port upstream request path calls).1
  = Raised (RequestsException kind message).
Proof.
  intros Hup.
  unfold proxy_request, try_except, sync_request, requests_request, mbind, M_bind.
  fold (forwarded_call host port request path). rewrite Hup.
  (* the class test of the [except] clause fails *)
  change (is_httpx_RequestError (RequestsException kind message)) with false.
  done.
Qed.

Lemma upstream_failure_propagates_witness :
  (proxy_request "fileserver" 8081 Sample.unreachable (Sample.get "") "models/a.pt" []).1
  = Raised (RequestsException ConnectionError "Connection refused").
Proof.
  apply (upstream_failure_propagates "fileserver" 8081 Sample.unreachable
           (Sample.get "") "models/a.pt" ConnectionError "Connection refused" []).
  reflexivity.
Defined.



(** *** Forwarded request headers *)

Lemma list_to_map_first (l1 l2 : list (string * string)) name value :
  name ∉ l1.*1 →
  (list_to_map (l1 ++ (name, value) :: l2) : gmap string string) !! name = Some value.
Proof.
  induction l1 as [|[k v] l1 IH]; intros Hno; simpl.
  - by rewrite lookup_insert_eq.
  - rewrite fmap_cons in Hno. apply not_elem_of_cons in Hno as [Hk Hno].
    rewrite lookup_insert_ne by done. by apply IH.
Qed.

(** Each header of the inbound request is forwarded under its name with
    the first value the request lists for it; later values of a
    repeated name are not forwarded. *)
Theorem first_header_value_is_forwarded host port request path before name value after :
  request_headers request = before ++ (name, value) :: after →
  name ∉ before.*1 →
  call_headers (forwarded_call host port request path) !! name = Some value.
Proof.
  intros Heq Hno. cbn. unfold dict_of_headers. rewrite Heq.
  by apply list_to_map_first.
Qed.

Lemma first_header_value_is_forwarded_witness :
  call_headers (forwarded_call "fileserver" 8081
                  {| request_method := "GET"; request_query := "";
                     request_headers := [("host", "proxy:8082"); ("accept", "text/html");
                                         ("accept", "*/*")];
                     request_body := [] |}
                  "models/a.pt") !! "accept" = Some "text/html".
Proof.
  apply (first_header_value_is_forwarded "fileserver" 8081 _ "models/a.pt"
           [("host", "proxy:8082")] "accept" "text/html" [("accept", "*/*")]).
  - reflexivity.
  - intros H. apply list_elem_of_singleton in H. discriminate.
Defined.

(** *** Relayed response headers *)

Lemma ci_of_list_snoc l name value :
  ci_of_list (l ++ [(name, value)]) = ci_set name value (ci_of_list l).
Proof. unfold ci_of_list. by rewrite foldl_snoc. Qed.

(** The store of a [CaseInsensitiveDict] files every name under its
    lower-case form. *)
Lemma ci_of_list_keys l k name value :
  ci_store (ci_of_list l) !! k = Some (name, value) → k = lower name.
Proof.
  revert k name value. induction l as [|[n v] l IH] using rev_ind; intros k name value.
  - done.
  - rewrite ci_of_list_snoc. unfold ci_set. cbn [ci_store].
    destruct (decide (lower n = k)) as [<-|Hne].
    + rewrite lookup_insert_eq. by intros [= -> ->].
    + rewrite lookup_insert_ne by done. apply IH.
Qed.

Lemma ci_of_list_lookup before name value after :
  lower name ∉ lower <$> after.*1 →
  ci_store (ci_of_list (before ++ (name, value) :: after)) !! lower name
  = Some (name, value).
Proof.
  induction after as [|[n v] after IH] using rev_ind; intros Hno.
  - rewrite ci_of_list_snoc. unfold ci_set. cbn [ci_store]. by rewrite lookup_insert_eq.
  - rewrite app_comm_cons, List.app_assoc, ci_of_list_snoc. unfold ci_set. cbn [ci_store].
    rewrite !fmap_app in Hno. apply not_elem_of_app in Hno as [Hno Hn].
    rewrite lookup_insert_ne; [by apply IH|].
    intros Heq. apply Hn. rewrite <- Heq. by left.
Qed.

Lemma keys_of_entries (L : list (string * (string * string))) :
  Forall (λ e, e.1 = lower e.2.1) L → L.*1 = lower <$> (snd <$> L).*1.
Proof.
  induction 1 as [|[k [n v]] L Hk _ IH]; [done|].
  rewrite !fmap_cons. simpl in *. by rewrite Hk, IH.
Qed.

(** [dict(d)] lists every entry of the store under its name as set. *)
Lemma dict_of_ci_of_list_lookup l name value :
  ci_store (ci_of_list l) !! lower name = Some (name, value) →
  dict_of_ci (ci_of_list l) !! name = Some value.
Proof.
  intros Hst. unfold dict_of_ci. apply elem_of_list_to_map_1.
  - apply (NoDup_fmap_1 lower). rewrite <- keys_of_entries.
    + apply NoDup_fst_map_to_list.
    + apply Forall_forall. intros [k [n v]] Hin%elem_of_map_to_list.
      by apply ci_of_list_keys in Hin.
  - apply (list_elem_of_fmap_2 snd _ (lower name, (name, value))).
    by apply elem_of_map_to_list.
Qed.

(** A header of the upstream response whose name, as the upstream
    spelled it, is none of ['connection'], ['transfer-encoding'] and
    the three CORS names is relayed under that name with its value.
    The upstream's headers are given as a list without repeated names. *)
Theorem upstream_header_is_relayed l name value :
  NoDup (lower <$> l.*1) →
  (name, value) ∈ l →
  name ∉ ["connection"; "transfer-encoding"; "Access-Control-Allow-Origin";
          "Access-Control-Allow-Methods"; "Access-Control-Allow-Headers"] →
  relay_headers (ci_of_list l) !! name = Some value.
Proof.
  intros Hnd Hin Hname. rewrite relay_headers_other by done.
  apply list_elem_of_split in Hin as (before & after & ->).
  apply dict_of_ci_of_list_lookup, ci_of_list_lookup.
  rewrite !fmap_app, !fmap_cons in Hnd.
  apply NoDup_app in Hnd as (_ & _ & Hnd). by apply NoDup_cons in Hnd as [Hnd _].
Qed.

Lemma upstream_header_is_relayed_witness :
  relay_headers (ci_of_list [("Content-Type", "application/octet-stream");
                             ("Connection", "keep-alive");
                             ("Transfer-Encoding", "chunked")])
    !! "Content-Type" = Some "application/octet-stream".
Proof.
  apply (upstream_header_is_relayed
           [("Content-Type", "application/octet-stream");
            ("Connection", "keep-alive");
            ("Transfer-Encoding", "chunked")]
           "Content-Type" "application/octet-stream").
  - vm_compute. repeat constructor; intros H; repeat (apply elem_of_cons in H as [H|H];
      [discriminate|]); by apply elem_of_nil in H.
  - by left.
  - intros H. repeat (apply elem_of_cons in H as [H|H]; [discriminate|]).
    by apply elem_of_nil in H.
Defined.

(** *** Routing *)

Ltac literal_route H :=
  apply (exec_sound _ 0 _ None []) in H;
  repeat run_step;
  repeat match goal with
  | H : charset_has (Literal _) _ = true |- _ => apply bool_decide_eq_true in H; subst
  end;
  match goal with
  | H : at_end _ = true |- _ =>
      unfold at_end in H; apply orb_prop in H as [H|H];
      apply bool_decide_eq_true in H; subst
  end; auto.

Lemma openapi_path_inv path g :
  re_match "^/openapi\.json$" path = Some g →
  path = "/openapi.json" ∨ path = "/openapi.json" +:+ one LF.
Proof. intros H. literal_route H. Qed.

Lemma docs_path_inv path g :
  re_match "^/docs$" path = Some g → path = "/docs" ∨ path = "/docs" +:+ one LF.
Proof. intros H. literal_route H. Qed.

Lemma redirect_path_inv path g :
  re_match "^/docs/oauth2\-redirect$" path = Some g →
  path = "/docs/oauth2-redirect" ∨ path = "/docs/oauth2-redirect" +:+ one LF.
Proof. intros H. literal_route H. Qed.

Lemma redoc_path_inv path g :
  re_match "^/redoc$" path = Some g → path = "/redoc" ∨ path = "/redoc" +:+ one LF.
Proof. intros H. literal_route H. Qed.

(** The catch-all route hands the handler the path without its leading
    ['/']. *)
Lemma catch_all_match p :
  single_line p → re_match "^/(.*)$" ("/" +:+ p) = Some [p].
Proof.
  intros Hp.
  assert (Hrun : run [AtStart; Chars (Literal "/") Once; GroupOpen;
                      Chars AnyButNewline ZeroOrMore; GroupClose; AtEnd]
                     0 ("/" +:+ p +:+ "") None [] [p]).
  { apply run_start, (run_one _ _ _ "/"); [done|].
    apply run_open, run_many; [done| |simpl; lia|].
    { rewrite FixUrlFacts.any_but_newline. unfold single_line in Hp. by rewrite Hp. }
    apply run_close, run_end; [done|apply run_done]. }
  rewrite app_nil_r in Hrun. apply exec_complete in Hrun as [g Hg].
  change (re_match "^/(.*)$" ("/" +:+ p) = Some [p]).
  unfold re_match. change (re_compile "^/(.*)$") with
    (Some [AtStart; Chars (Literal "/") Once; GroupOpen;
           Chars AnyButNewline ZeroOrMore; GroupClose; AtEnd]).
  cbn [mbind option_bind]. rewrite Hg. f_equal.
  apply exec_sound in Hg. repeat run_step.
  match goal with H : all_chars _ _ = true |- _ =>
    rewrite FixUrlFacts.any_but_newline in H; apply negb_true_iff in H end.
  match goal with H : _ +:+ _ = "" +:+ p |- _ => rewrite app_nil_l in H; subst p end.
  match goal with H : at_end _ = true |- _ => apply FixUrlFacts.at_end_inv in H as [-> | ->] end.
  - by rewrite app_nil_r.
  - unfold single_line in Hp. rewrite has_char_app in Hp. simpl in Hp.
    by rewrite orb_true_r in Hp.
Qed.

Lemma one_line_not_lf_ended p q : single_line p → "/" +:+ p ≠ q +:+ one LF.
Proof.
  intros Hp Heq.
  assert (H : has_char LF ("/" +:+ p) = true).
  { rewrite Heq, has_char_app. simpl. by rewrite orb_true_r. }
  rewrite has_char_app in H. unfold single_line in Hp. by rewrite Hp in H.
Qed.

(** A request with one of the six methods of the catch-all route is
    handed to [proxy_request], with the inbound path less its leading
    ['/'] as the path argument, so that the handler's ['/' + path] is the
    inbound path again. Only [GET] and [HEAD] requests for the four
    documentation paths are kept by the framework. *)
Theorem proxied_methods_reach_proxy_request method p :
  method ∈ ["GET"; "POST"; "PUT"; "DELETE"; "HEAD"; "OPTIONS"] →
  single_line p →
  (method ∈ ["GET"; "HEAD"] →
   p ∉ ["openapi.json"; "docs"; "docs/oauth2-redirect"; "redoc"]) →
  dispatch method ("/" +:+ p) = Routed ProxyRequest [p].
Proof.
  intros Hm Hp Hdoc.
  assert (Hfull : ∀ rx lit g,
    (∀ path g, re_match rx path = Some g → path = "/" +:+ lit ∨ path = ("/" +:+ lit) +:+ one LF) →
    lit ∈ ["openapi.json"; "docs"; "docs/oauth2-redirect"; "redoc"] →
    match re_match rx ("/" +:+ p) with
    | Some params => if bool_decide (method ∈ ["GET"; "HEAD"]) then FULL params else PARTIAL
    | None => NONE
    end ≠ FULL g).
  { intros rx lit g Hinv Hlit.
    destruct (re_match rx ("/" +:+ p)) as [g'|] eqn:Hrx; [|done].
    destruct (decide (method ∈ ["GET"; "HEAD"])) as [Hgh|Hgh];
      [|by rewrite bool_decide_eq_false_2].
    destruct (Hinv _ _ Hrx) as [Heq | Heq].
    - rewrite !app_cons, !app_nil_l in Heq. injection Heq as ->. by destruct (Hdoc Hgh).
    - by apply one_line_not_lf_ended in Heq. }
  unfold dispatch, routes. cbn [dispatch_from].
  unfold matches at 1. cbn [route_regex route_methods route_endpoint].
  lazymatch goal with |- context [match ?m with FULL _ => _ | _ => _ end] =>
    destruct m eqn:H1 end;
    [| |by apply (Hfull _ "openapi.json" _ openapi_path_inv) in H1; [|repeat constructor]].
  all: unfold matches at 1; cbn [route_regex route_methods route_endpoint].
  all: lazymatch goal with |- context [match ?m with FULL _ => _ | _ => _ end] =>
    destruct m eqn:H2 end;
    [| |by apply (Hfull _ "docs" _ docs_path_inv) in H2; [|repeat constructor]].
  all: unfold matches at 1; cbn [route_regex route_methods route_endpoint].
  all: lazymatch goal with |- context [match ?m with FULL _ => _ | _ => _ end] =>
    destruct m eqn:H3 end;
    [| |by apply (Hfull _ "docs/oauth2-redirect" _ redirect_path_inv) in H3; [|repeat constructor]].
  all: unfold matches at 1; cbn [route_regex route_methods route_endpoint].
  all: lazymatch goal with |- context [match ?m with FULL _ => _ | _ => _ end] =>
    destruct m eqn:H4 end;
    [| |by apply (Hfull _ "redoc" _ redoc_path_inv) in H4; [|repeat constructor]].
  all: unfold matches at 1; cbn [route_regex route_methods route_endpoint].
  all: rewrite catch_all_match by done.
  all: by rewrite bool_decide_eq_true_2.
Qed.

Lemma proxied_methods_reach_proxy_request_witness :
  dispatch "POST" "/docs" = Routed ProxyRequest ["docs"].
Proof.
  apply (proxied_methods_reach_proxy_request "POST" "docs").
  - repeat constructor.
  - reflexivity.
  - intros H. repeat (apply elem_of_cons in H as [H|H]; [discriminate|]).
    by apply elem_of_nil in H.
Defined.





End RelayMore.

(** ** The relayed body *)

Module RelayBody.

Import Str StrFacts RelayFacts RelayMore.

(** C7: the claim asks that the upstream's body be copied verbatim; the
    code does not do it. The content handed to [Response] is
    [response.content], which [requests] has already decoded, while the
    headers are copied as received. For a reply under a content coding
    that [requests] undoes, the relay makes its one call with redirects
    not followed and returns the status code of the reply, but the body
    it returns is the decoded one, not the bytes the upstream sent, and
    it still carries the reply's [Content-Encoding] header. *)
Theorem encoded_body_is_relayed_decoded
    host port content_decoder request path w name coding decode :
  ci_store (ci_of_list (wire_headers w)) !! "content-encoding" = Some (name, coding) →
  content_decoder coding = Some decode →
  decode (wire_body w) ≠ wire_body w →
  ∃ resp call,
    proxy_request host port (λ _, inl (requests_response content_decoder w))
      request path [] = (Returned resp, [call])
    ∧ status_code resp = wire_status_code w
    ∧ call_allow_redirects call = false
    ∧ content resp = BodyBytes (decode (wire_body w))
    ∧ content resp ≠ BodyBytes (wire_body w)
    ∧ headers resp !! name = Some coding.
Proof.
  intros Hst Hdec Hne.
  assert (Hcontent : response_content content_decoder w = decode (wire_body w)).
  { unfold response_content. by rewrite Hst, Hdec. }
  eexists _, _. split.
  { exact (proxy_request_answered host port _ request path
             (requests_response content_decoder w) [] eq_refl). }
  cbn [status_code content headers requests_response up_status_code up_content up_headers].
  rewrite Hcontent.
  split; [done|]. split; [done|]. split; [done|]. split; [congruence|].
  pose proof (ci_of_list_keys _ _ _ _ Hst) as Hk.
  rewrite relay_headers_other.
  - apply dict_of_ci_of_list_lookup. by rewrite <- Hk.
  - intros H.
    repeat (apply elem_of_cons in H as [->|H]; [by vm_compute in Hk|]).
    by apply elem_of_nil in H.
Qed.

Lemma encoded_body_is_relayed_decoded_witness :
  ∃ resp call,
    proxy_request "fileserver" 8081
      (λ _, inl (requests_response WireSample.decoders WireSample.compressed))
      (Sample.get "") "models/a.pt" [] = (Returned resp, [call])
    ∧ status_code resp = wire_status_code WireSample.compressed
    ∧ call_allow_redirects call = false
    ∧ content resp
      = BodyBytes (WireSample.strip_header (wire_body WireSample.compressed))
    ∧ content resp ≠ BodyBytes (wire_body WireSample.compressed)
    ∧ headers resp !! "Content-Encoding" = Some "gzip".
Proof.
  apply (encoded_body_is_relayed_decoded "fileserver" 8081 WireSample.decoders
           (Sample.get "") "models/a.pt" WireSample.compressed
           "Content-Encoding" "gzip" WireSample.strip_header).
  - vm_compute. reflexivity.
  - reflexivity.
  - discriminate.
Defined.

End RelayBody.
